(** * Measurement and timing engine of gps-crono (src/App.tsx)

    Shallow embedding of the speed/split logic of [App.tsx].  Numbers
    (speeds, distances, timestamps) are modelled as real numbers.  React
    state is an explicit record: every [setX] call of one event handler is
    committed before the next event, functional updaters read the latest
    value, and the location callback handed to [watchPositionAsync] keeps
    the values of [armed], [t0] and [distanceM] of the render in which
    [start] ran (the closure it was created in).  [start] is asynchronous:
    the subscription reaches [subRef.current] only when the awaited
    [watchPositionAsync] call resolves, a separate event; the location
    watches themselves are tracked next to the component state (module
    [App], record [World]). *)

From Stdlib Require Import Reals Lra List Bool Sorted.
From Stdlib Require String.
Import ListNotations.
Open Scope R_scope.

(** ** Utilities (lines 11-23) *)

Module Geo.

(** [const KMH = (mps) => (mps ?? 0) * 3.6] *)
Definition KMH (mps : option R) : R :=
  (match mps with Some v => v | None => 0 end) * 3.6.

(** [const clamp = (v, a, b) => Math.max(a, Math.min(b, v))] *)
Definition clamp (v a b : R) : R := Rmax a (Rmin b v).

(** [Math.atan2(y, x)] on the reals (signed zeros are not modelled). *)
Definition atan2 (y x : R) : R :=
  if Rlt_dec 0 x then atan (y / x)
  else if Rlt_dec x 0 then
    (if Rle_dec 0 y then atan (y / x) + PI else atan (y / x) - PI)
  else if Rlt_dec 0 y then PI / 2
  else if Rlt_dec y 0 then - (PI / 2)
  else 0.

(** [const toRad = (d) => (d * Math.PI) / 180] *)
Definition toRad (d : R) : R := (d * PI) / 180.

(** [function haversineMeters(lat1, lon1, lat2, lon2)], computed exactly.
    In double precision [a] can round above 1 for nearly antipodal
    points, and then [Math.sqrt(1 - a)] and the result are NaN; this
    exact model has no such value, so nothing below relies on the sign or
    size of a leg. *)
Definition haversineMeters (lat1 lon1 lat2 lon2 : R) : R :=
  let R0 := 6371000 in
  let dLat := toRad (lat2 - lat1) in
  let dLon := toRad (lon2 - lon1) in
  let a := sin (dLat / 2) ^ 2
           + cos (toRad lat1) * cos (toRad lat2) * sin (dLon / 2) ^ 2 in
  let c := 2 * atan2 (sqrt a) (sqrt (1 - a)) in
  R0 * c.

End Geo.

(** ** [class EmaFilter] (lines 26-31) *)

Module Ema.

Record EmaFilter := mkEma { alpha : R; y : option R }.

(** [constructor(alpha = 0.25) { this.alpha = clamp(alpha, 0.05, 0.9); }] *)
Definition create (a : R) : EmaFilter :=
  {| alpha := Geo.clamp a 0.05 0.9; y := None |}.

(** [next(x)]: returns the new smoothed value and the updated filter. *)
Definition next (f : EmaFilter) (x : R) : R * EmaFilter :=
  let y' := match y f with
            | None => x
            | Some y0 => alpha f * x + (1 - alpha f) * y0
            end in
  (y', {| alpha := alpha f; y := Some y' |}).

(** [reset() { this.y = null; }] *)
Definition reset (f : EmaFilter) : EmaFilter :=
  {| alpha := alpha f; y := None |}.

End Ema.

(** ** Parameters, types and the React component (lines 34-162) *)

Module App.

Definition SPEED_THRESHOLDS : list R := [40; 60; 80; 100; 120; 140; 160; 180; 200].
Definition STOP_KMH : R := 1.0.
Definition MOVING_KMH : R := 3.0.

(** [interface Split { target: number; t: number | null; }] *)
Record Split := mkSplit { target : R; t : option R }.

(** [SPEED_THRESHOLDS.map(v => ({ target: v, t: null }))] *)
Definition fresh_splits : list Split :=
  map (fun v => {| target := v; t := None |}) SPEED_THRESHOLDS.

(** The fields of [Location.LocationObjectCoords] the code reads. *)
Record Coords := mkCoords {
  latitude : R; longitude : R; speed : option R;
  accuracy : option R; satellitesUsed : option R }.

(** A location update [loc = { coords, timestamp }]. *)
Record LocationObject := mkLoc { coords : Coords; timestamp : R }.

Record FixInfo := mkFixInfo { acc : option R; sat : option R }.

(** The values of the render in which [start] ran, read by the location
    callback: [armed], [t0] and [distanceM] (its [useCallback]
    dependencies besides [hasPerm]). *)
Record Closure := mkClosure {
  cl_armed : bool; cl_t0 : option R; cl_distanceM : R }.

(** State of the component: the [useState] variables and the refs
    ([subRef] holds the number of the stored subscription, see [World]). *)
Record AppState := mkApp {
  hasPerm : option bool;
  running : bool;
  armed : bool;
  t0 : option R;
  splits : list Split;
  maxKmh : R;
  avgKmh : R;
  currKmh : R;
  distanceM : R;
  elapsedMs : R;
  fixInfo : option FixInfo;
  lastPoint : option Coords;
  ema : Ema.EmaFilter;
  subRef : option nat }.

Definition initial : AppState :=
  {| hasPerm := None; running := false; armed := false; t0 := None;
     splits := fresh_splits; maxKmh := 0; avgKmh := 0; currKmh := 0;
     distanceM := 0; elapsedMs := 0; fixInfo := None; lastPoint := None;
     ema := Ema.create 0.25; subRef := None |}.

(** The [setSplits] updater (lines 132-140), with the [t0] it reads made
    an argument: the split-tracker operation [observe]. *)
Definition observe (prev : list Split) (t0v : option R) (now speedKmh : R)
  : list Split :=
  match t0v with
  | None => prev
  | Some t0' =>
      let dt := now - t0' in
      map (fun s =>
             match t s with
             | Some _ => s
             | None => if Rge_dec speedKmh (target s)
                       then {| target := target s; t := Some dt |}
                       else s
             end) prev
  end.

(** The [setAvgKmh] updater (lines 146-152), with the [t0] and [distanceM]
    it reads made arguments. *)
Definition avg_update (t0v : option R) (distM now curr : R) : R :=
  match t0v with
  | None => curr
  | Some t0' =>
      let secs := (now - t0') / 1000 in
      if Rle_dec secs 0 then 0
      else let km := distM / 1000 in km / (secs / 3600)
  end.

(** Launch logic (lines 122-129): the [t0] after the [setT0] call, if any. *)
Definition launch (armedv : bool) (t0v : option R) (speedKmh now : R)
  (cur : option R) : option R :=
  if armedv && match t0v with None => true | Some _ => false end then
    if Rle_dec speedKmh STOP_KMH then cur
    else if Rge_dec speedKmh MOVING_KMH then Some now
    else cur
  else cur.

(** The [watchPositionAsync] callback (lines 104-153), run with the
    closure [c] captured by [start]. *)
Definition on_location (c : Closure) (loc : LocationObject) (s : AppState)
  : AppState :=
  let cs := coords loc in
  let speedKmhRaw := Geo.KMH (speed cs) in
  let (speedKmh, ema') := Ema.next (ema s) speedKmhRaw in
  let now := timestamp loc in
  let distanceM' :=
    match lastPoint s with
    | Some p => distanceM s
                + Geo.haversineMeters (latitude p) (longitude p)
                                      (latitude cs) (longitude cs)
    | None => distanceM s
    end in
  {| hasPerm := hasPerm s;
     running := running s;
     armed := armed s;
     t0 := launch (cl_armed c) (cl_t0 c) speedKmh now (t0 s);
     splits := observe (splits s) (cl_t0 c) now speedKmh;
     maxKmh := Rmax (maxKmh s) speedKmh;
     avgKmh := avg_update (cl_t0 c) (cl_distanceM c) now (avgKmh s);
     currKmh := speedKmh;
     distanceM := distanceM';
     elapsedMs := match cl_t0 c with
                  | Some t0' => now - t0'
                  | None => elapsedMs s
                  end;
     fixInfo := Some {| acc := accuracy cs; sat := satellitesUsed cs |};
     lastPoint := Some cs;
     ema := ema';
     subRef := subRef s |}.

(** [resetAll] (lines 79-86): its effect on the component state; the
    removal of the stored subscription is [reset_w] below. *)
Definition resetAll (s : AppState) : AppState :=
  {| hasPerm := hasPerm s; running := false; armed := false; t0 := None;
     splits := fresh_splits; maxKmh := 0; avgKmh := 0; currKmh := 0;
     distanceM := 0; elapsedMs := 0; fixInfo := fixInfo s;
     lastPoint := None; ema := Ema.reset (ema s); subRef := None |}.

(** [start] (lines 88-156) up to its [await] (line 96): guarded by
    [hasPerm], it resets the session.  It does not touch [subRef]: the
    subscription is stored there only once [watchPositionAsync] has
    resolved (line 155), the event [Resolve] below. *)
Definition start (s : AppState) : AppState :=
  match hasPerm s with
  | Some true =>
      {| hasPerm := hasPerm s; running := true; armed := true; t0 := None;
         splits := fresh_splits; maxKmh := 0; avgKmh := 0; currKmh := 0;
         distanceM := 0; elapsedMs := 0; fixInfo := fixInfo s;
         lastPoint := None; ema := Ema.reset (ema s);
         subRef := subRef s |}
  | _ => s
  end.

(** The values of the render in which [start] runs, which the callback
    it hands to [watchPositionAsync] closes over. *)
Definition start_closure (s : AppState) : Closure :=
  {| cl_armed := armed s; cl_t0 := t0 s; cl_distanceM := distanceM s |}.

(** [stop] (lines 158-162): its effect on the component state; the
    removal of the stored subscription is [stop_w] below. *)
Definition stop (s : AppState) : AppState :=
  {| hasPerm := hasPerm s; running := false; armed := false; t0 := t0 s;
     splits := splits s; maxKmh := maxKmh s; avgKmh := avgKmh s;
     currKmh := currKmh s; distanceM := distanceM s; elapsedMs := elapsedMs s;
     fixInfo := fixInfo s; lastPoint := lastPoint s; ema := ema s;
     subRef := None |}.

(** ** Location watches *)

(** The component together with the location watches.  [watches] are
    the subscriptions returned by [watchPositionAsync] and not removed
    yet, each delivering updates to the callback (closure) it was created
    with; [pending] are the [watchPositionAsync] calls whose promise has
    not settled; [next_id] numbers the calls. *)
Record World := mkWorld {
  app : AppState;
  watches : list (nat * Closure);
  pending : list (nat * Closure);
  next_id : nat }.

Definition boot : World :=
  {| app := initial; watches := []; pending := []; next_id := 0 |}.

Fixpoint find_sub (i : nat) (l : list (nat * Closure)) : option Closure :=
  match l with
  | [] => None
  | (j, c) :: l' => if Nat.eqb i j then Some c else find_sub i l'
  end.

Fixpoint drop_sub (i : nat) (l : list (nat * Closure)) : list (nat * Closure) :=
  match l with
  | [] => []
  | (j, c) :: l' => if Nat.eqb i j then drop_sub i l' else (j, c) :: drop_sub i l'
  end.

(** [subRef.current?.remove()] *)
Definition detach (r : option nat) (l : list (nat * Closure)) : list (nat * Closure) :=
  match r with
  | Some i => drop_sub i l
  | None => l
  end.

Definition with_app (w : World) (s : AppState) : World :=
  {| app := s; watches := watches w; pending := pending w; next_id := next_id w |}.

(** [subRef.current = r] *)
Definition set_subRef (s : AppState) (r : option nat) : AppState :=
  {| hasPerm := hasPerm s; running := running s; armed := armed s;
     t0 := t0 s; splits := splits s; maxKmh := maxKmh s;
     avgKmh := avgKmh s; currKmh := currKmh s;
     distanceM := distanceM s; elapsedMs := elapsedMs s;
     fixInfo := fixInfo s; lastPoint := lastPoint s;
     ema := ema s; subRef := r |}.

(** [stop]: the stored subscription (if any) is removed. *)
Definition stop_w (w : World) : World :=
  {| app := stop (app w); watches := detach (subRef (app w)) (watches w);
     pending := pending w; next_id := next_id w |}.

(** [resetAll]: the stored subscription (if any) is removed. *)
Definition reset_w (w : World) : World :=
  {| app := resetAll (app w); watches := detach (subRef (app w)) (watches w);
     pending := pending w; next_id := next_id w |}.

(** [start] up to its [await]: the state is reset and the call
    [watchPositionAsync(..., callback)] is issued, the callback closing
    over the current render. *)
Definition start_w (w : World) : World :=
  match hasPerm (app w) with
  | Some true =>
      {| app := start (app w); watches := watches w;
         pending := (next_id w, start_closure (app w)) :: pending w;
         next_id := S (next_id w) |}
  | _ => w
  end.

(** Events: the permission answer, the two buttons (only rendered once
    permission is granted; the main one is [running ? stop : start]), the
    settling of a pending [watchPositionAsync] call, and a location update
    delivered by an active watch. *)
Inductive event :=
| Perm (granted : bool)
| PressMain
| PressReset
| Resolve (i : nat)
| Reject (i : nat)
| Fix (i : nat) (loc : LocationObject).

Definition ui_shown (s : AppState) : bool :=
  match hasPerm s with Some true => true | _ => false end.

Definition step (w : World) (e : event) : World :=
  match e with
  | Perm g =>
      let s := app w in
      with_app w {| hasPerm := Some g; running := running s; armed := armed s;
                    t0 := t0 s; splits := splits s; maxKmh := maxKmh s;
                    avgKmh := avgKmh s; currKmh := currKmh s;
                    distanceM := distanceM s; elapsedMs := elapsedMs s;
                    fixInfo := fixInfo s; lastPoint := lastPoint s;
                    ema := ema s; subRef := subRef s |}
  | PressMain =>
      if ui_shown (app w) then (if running (app w) then stop_w w else start_w w)
      else w
  | PressReset => if ui_shown (app w) then reset_w w else w
  | Resolve i =>
      (* the rest of [start] runs: [subRef.current = sub] (line 155) *)
      match find_sub i (pending w) with
      | Some c => {| app := set_subRef (app w) (Some i);
                     watches := (i, c) :: watches w;
                     pending := drop_sub i (pending w);
                     next_id := next_id w |}
      | None => w
      end
  | Reject i =>
      (* the awaited call throws: the rest of [start] does not run *)
      {| app := app w; watches := watches w;
         pending := drop_sub i (pending w); next_id := next_id w |}
  | Fix i loc =>
      match find_sub i (watches w) with
      | Some c => with_app w (on_location c loc (app w))
      | None => w
      end
  end.

Definition run (w : World) (es : list event) : World := fold_left step es w.

(** What the screen shows after an event. *)
Record Snapshot := mkSnap {
  sn_currKmh : R; sn_maxKmh : R; sn_avgKmh : R; sn_distanceM : R;
  sn_elapsedMs : R; sn_splits : list Split; sn_fixInfo : option FixInfo }.

Definition snapshot (s : AppState) : Snapshot :=
  {| sn_currKmh := currKmh s; sn_maxKmh := maxKmh s; sn_avgKmh := avgKmh s;
     sn_distanceM := distanceM s; sn_elapsedMs := elapsedMs s;
     sn_splits := splits s; sn_fixInfo := fixInfo s |}.

(** Invariant of every world reachable from [boot]: the [running] and
    [armed] flags agree, [t0] is unset, and every callback of an active
    watch or of a pending call closes over [armed = false] and
    [t0 = null]. *)
Definition app_inv (w : World) : Prop :=
  running (app w) = armed (app w) /\ t0 (app w) = None /\
  (forall i c, In (i, c) (watches w ++ pending w) ->
     cl_armed c = false /\ cl_t0 c = None).

End App.

(** Concrete location updates used in the scenarios below. *)
Module Inputs.
Import App.

(** A fix at ([lat], [lon]) reporting [mps] m/s at time [ts] (ms). *)
Definition loc_at (lat lon mps ts : R) : LocationObject :=
  {| coords := {| latitude := lat; longitude := lon; speed := Some mps;
                  accuracy := None; satellitesUsed := None |};
     timestamp := ts |}.

(** Permission granted, the main button pressed once ([start]), and its
    [watchPositionAsync] call resolved. *)
Definition started : World := run boot [Perm true; PressMain; Resolve 0].

(** One [step] of the split updater: the [t0], [now] and speed it reads. *)
Definition observe_all (prev : list Split) (obs : list (option R * R * R))
  : list Split :=
  fold_left (fun acc o => let '(t0v, now, v) := o in observe acc t0v now v)
            obs prev.

End Inputs.

(** ** Rendering of the split list (lines 165-168) *)

Module View.
Import App String.

Section Format.

(** The number-to-text conversions of the template literal
    [`${s.target}`] and of [(x).toFixed(2)]. *)
Variable numStr : R -> String.string.
Variable toFixed2 : R -> String.string.

(** The placeholder shown for a split not reached yet. *)
Definition EM_DASH : string := "—".

Record Row := mkRow { label : String.string; value : String.string }.

(** [splits.map(s => ({ label: `0 → ${s.target} km/h`,
      value: s.t === null ? '—' : (s.t / 1000).toFixed(2) + ' s' }))] *)
Definition formattedSplits (l : list Split) : list Row :=
  map (fun s =>
         {| label := String.append "0 → "%string
                       (String.append (numStr (target s)) " km/h"%string);
            value := match t s with
                     | None => EM_DASH
                     | Some v => String.append (toFixed2 (v / 1000)) " s"%string
                     end |}) l.

End Format.

End View.

(** ** Invariant of the states reachable from [initial] *)

Module Reach.
Import App.

(** What the component state keeps while [t0] is never set. *)
Definition meas_inv (s : AppState) : Prop :=
  splits s = fresh_splits /\ elapsedMs s = 0 /\ avgKmh s = 0 /\
  currKmh s <= maxKmh s /\ 0 <= maxKmh s /\
  (lastPoint s = None -> distanceM s = 0) /\
  Ema.alpha (ema s) = Ema.alpha (Ema.create 0.25).

Definition reach_inv (w : World) : Prop := app_inv w /\ meas_inv (app w).

(** Split entries in ascending target order whose recorded times are
    ordered the same way: a higher split is set only when the lower one
    is, and not earlier. *)
Definition split_le (a b : Split) : Prop :=
  target a < target b /\
  (forall tb, t b = Some tb -> exists ta, t a = Some ta /\ ta <= tb).

(** Every recorded split time is at most [bound]. *)
Definition times_below (bound : R) (l : list Split) : Prop :=
  Forall (fun s => forall ts, t s = Some ts -> ts <= bound) l.

End Reach.

(** * Proofs *)

Module GeoFacts.
Import Geo.

Lemma atan_pos (x : R) : 0 < x -> 0 < atan x.
Proof.
  intros Hx. pose proof (atan_increasing 0 x Hx) as H. rewrite atan_0 in H. exact H.
Qed.

Lemma atan2_pos (y x : R) : 0 < y -> 0 <= x -> 0 < atan2 y x.
Proof.
  intros Hy Hx. unfold atan2.
  destruct (Rlt_dec 0 x) as [Hx0|Hx0].
  - apply atan_pos. unfold Rdiv. apply Rmult_lt_0_compat; [lra|].
    apply Rinv_0_lt_compat. exact Hx0.
  - destruct (Rlt_dec x 0); [lra|].
    destruct (Rlt_dec 0 y); [pose proof PI_RGT_0; lra|lra].
Qed.

(** A one-degree step along the equator has a positive length. *)
Lemma haversine_equator_pos : 0 < haversineMeters 0 0 0 1.
Proof.
  unfold haversineMeters. cbv zeta.
  apply Rmult_lt_0_compat; [lra|]. apply Rmult_lt_0_compat; [lra|].
  apply atan2_pos; [|apply sqrt_pos].
  apply sqrt_lt_R0.
  replace (toRad (0 - 0) / 2) with 0 by (unfold toRad; field).
  replace (toRad 0) with 0 by (unfold toRad; field).
  rewrite sin_0, cos_0.
  assert (Hs : 0 < sin (toRad (1 - 0) / 2)).
  { pose proof PI_RGT_0 as HP. apply sin_gt_0; unfold toRad; lra. }
  nra.
Qed.

End GeoFacts.

Module AppFacts.
Import App.

Lemma find_sub_in (i : nat) (c : Closure) (l : list (nat * Closure)) :
  find_sub i l = Some c -> In (i, c) l.
Proof.
  induction l as [|[j d] l IH]; cbn; [discriminate|].
  destruct (Nat.eqb i j) eqn:E.
  - apply Nat.eqb_eq in E. subst j. intros H. injection H as <-. left. reflexivity.
  - intros H. right. apply IH, H.
Qed.

Lemma drop_sub_incl (i : nat) (x : nat * Closure) (l : list (nat * Closure)) :
  In x (drop_sub i l) -> In x l.
Proof.
  induction l as [|[j d] l IH]; cbn; [contradiction|].
  destruct (Nat.eqb i j); [intros H; right; apply IH, H|].
  intros [H|H]; [left; exact H|right; apply IH, H].
Qed.

Lemma detach_incl (r : option nat) (x : nat * Closure) (l : list (nat * Closure)) :
  In x (detach r l) -> In x l.
Proof. destruct r as [i|]; cbn; [apply drop_sub_incl|exact (fun H => H)]. Qed.




Lemma app_inv_initial : app_inv boot.
Proof.
  unfold app_inv. cbn. split; [reflexivity|]. split; [reflexivity|].
  intros i c [].
Qed.

Lemma launch_not_armed (t0v : option R) (v now : R) (cur : option R) :
  launch false t0v v now cur = cur.
Proof. reflexivity. Qed.

Lemma app_inv_step (w : World) (e : event) : app_inv w -> app_inv (step w e).
Proof.
  intros Hw. pose proof Hw as (Hra & Ht0 & Hcl).
  destruct e as [g| | |i|i|i loc].
  - exact Hw.
  - unfold step. destruct (ui_shown (app w)); [|exact Hw].
    destruct (running (app w)) eqn:Hr.
    + unfold app_inv, stop_w, stop; cbn.
      split; [reflexivity|]. split; [exact Ht0|].
      intros j c Hj. apply (Hcl j). rewrite in_app_iff in *.
      destruct Hj as [Hj|Hj]; [left; eapply detach_incl; exact Hj|right; exact Hj].
    + unfold start_w. destruct (hasPerm (app w)) as [[|]|] eqn:Hp; try exact Hw.
      unfold app_inv, start. rewrite Hp. cbn.
      split; [reflexivity|]. split; [reflexivity|].
      intros j c Hj. rewrite in_app_iff in Hj. cbn in Hj.
      destruct Hj as [Hj|[Hj|Hj]].
      * apply (Hcl j). rewrite in_app_iff. left. exact Hj.
      * injection Hj as _ <-. cbn. split; congruence.
      * apply (Hcl j). rewrite in_app_iff. right. exact Hj.
  - unfold step. destruct (ui_shown (app w)); [|exact Hw].
    unfold app_inv, reset_w, resetAll; cbn.
    split; [reflexivity|]. split; [reflexivity|].
    intros j c Hj. apply (Hcl j). rewrite in_app_iff in *.
    destruct Hj as [Hj|Hj]; [left; eapply detach_incl; exact Hj|right; exact Hj].
  - unfold step. destruct (find_sub i (pending w)) as [c|] eqn:Hf; [|exact Hw].
    unfold app_inv, set_subRef; cbn.
    split; [exact Hra|]. split; [exact Ht0|].
    intros j d Hj. apply (Hcl j). rewrite in_app_iff. cbn in Hj.
    destruct Hj as [Hj|Hj].
    + injection Hj as <- <-. right. apply find_sub_in, Hf.
    + rewrite in_app_iff in Hj. destruct Hj as [Hj|Hj]; [left; exact Hj|].
      right. eapply drop_sub_incl. exact Hj.
  - unfold app_inv, step; cbn.
    split; [exact Hra|]. split; [exact Ht0|].
    intros j d Hj. apply (Hcl j). rewrite in_app_iff in *.
    destruct Hj as [Hj|Hj]; [left; exact Hj|right; eapply drop_sub_incl; exact Hj].
  - unfold step. destruct (find_sub i (watches w)) as [c|] eqn:Hf; [|exact Hw].
    assert (Hc : cl_armed c = false /\ cl_t0 c = None).
    { apply (Hcl i). rewrite in_app_iff. left. apply find_sub_in, Hf. }
    destruct Hc as [Hca _].
    unfold app_inv, with_app, on_location; cbn.
    destruct (Ema.next (ema (app w)) (Geo.KMH (speed (coords loc)))). cbn.
    rewrite Hca. cbn.
    split; [exact Hra|]. split; [exact Ht0|exact Hcl].
Qed.

Lemma app_inv_run (w : World) (es : list event) :
  app_inv w -> app_inv (run w es).
Proof.
  revert w. induction es as [|e es IH]; intros w Hw; cbn; [exact Hw|].
  apply IH, app_inv_step, Hw.
Qed.

(** Consequently the time origin is never set in a reachable state. *)
Lemma reachable_t0_unset (es : list event) : t0 (app (run boot es)) = None.
Proof. apply (app_inv_run boot es app_inv_initial). Qed.

(** The launch test itself has the intended hysteresis when it is given
    [armed = true] and an unset [t0]. *)
Lemma launch_armed (v now : R) (cur : option R) :
  launch true None v now cur = if Rge_dec v MOVING_KMH then Some now else cur.
Proof.
  unfold launch, STOP_KMH, MOVING_KMH; cbn.
  destruct (Rle_dec v 1.0); destruct (Rge_dec v 3.0); auto; lra.
Qed.

End AppFacts.

Module Claims.
Import App Inputs.

Lemma clamp_default : Geo.clamp 0.25 0.05 0.9 = 0.25.
Proof.
  unfold Geo.clamp. rewrite Rmin_right by lra. rewrite Rmax_right by lra. reflexivity.
Qed.

(** ** C1 *)

(** C1 (counterexample): after a fix at t = 1000 ms with speed 0, a second
    fix stamped earlier (t = 500 ms) reporting 10 m/s is not ignored: the
    snapshot changes (the current speed becomes 9 km/h). *)
Lemma C1_out_of_order_changes_snapshot :
  let w1 := run started [Fix 0 (loc_at 0 0 0 1000)] in
  let l2 := loc_at 0 0 10 500 in
  timestamp l2 <= timestamp (loc_at 0 0 0 1000) /\
  snapshot (app (step w1 (Fix 0 l2))) <> snapshot (app w1).
Proof.
  cbn. split; [lra|].
  intros H. apply (f_equal sn_currKmh) in H. cbn in H.
  rewrite clamp_default in H. unfold Geo.KMH in H. lra.
Qed.

(** C1 (amended): the callback makes no timestamp check.  Two fixes that
    differ only in their timestamp update the filter, the current and
    maximum speed, the distance, the last coordinate and the fix info in
    the same way: the current speed is the filter's next output and the
    last coordinate is the new fix, whatever the timestamp. *)
Theorem C1_no_timestamp_gate (c : Closure) (s : AppState) (cs : Coords) (ts1 ts2 : R) :
  let r1 := on_location c {| coords := cs; timestamp := ts1 |} s in
  let r2 := on_location c {| coords := cs; timestamp := ts2 |} s in
  currKmh r1 = fst (Ema.next (ema s) (Geo.KMH (speed cs))) /\
  lastPoint r1 = Some cs /\
  ema r1 = ema r2 /\ currKmh r1 = currKmh r2 /\ maxKmh r1 = maxKmh r2 /\
  distanceM r1 = distanceM r2 /\ lastPoint r1 = lastPoint r2 /\
  fixInfo r1 = fixInfo r2.
Proof.
  unfold on_location; cbn.
  destruct (Ema.next (ema s) (Geo.KMH (speed cs))). cbn.
  repeat split; reflexivity.
Qed.

(** ** C2 *)

(** C2 (code at the failing input): right after [start] (its
    [watchPositionAsync] call resolved) the component is armed with [t0]
    unset; a first fix at 5 m/s gives a smoothed speed of
    18 km/h (at least MOVING_KMH), yet [t0] stays unset, because the
    callback tests the [armed] of the render in which [start] ran
    (false). *)
Theorem C2_launch_never_fires :
  let s2 := app (step started (Fix 0 (loc_at 0 0 5 1000))) in
  armed (app started) = true /\ t0 (app started) = None /\
  currKmh s2 = 18 /\ MOVING_KMH <= currKmh s2 /\ t0 s2 = None.
Proof.
  cbn. unfold MOVING_KMH, Geo.KMH. repeat split; lra.
Qed.

(** ** C4 *)

(** C4 (code at the failing input): after [start], a fix at 5 m/s at
    (0, 0) and t = 0 ms, then one at (0, 1) and t = 1000 ms: the distance
    is positive but the average stays 0, since the callback reads the
    [t0] (unset) and [distanceM] of the render in which [start] ran. *)
Theorem C4_average_reads_stale_values :
  let s := app (run started [Fix 0 (loc_at 0 0 5 0); Fix 0 (loc_at 0 1 5 1000)]) in
  currKmh (app (run started [Fix 0 (loc_at 0 0 5 0)])) = 18 /\
  t0 s = None /\ avgKmh s = 0 /\ 0 < distanceM s.
Proof.
  cbn. unfold Geo.KMH. repeat split; try lra.
  pose proof GeoFacts.haversine_equator_pos. lra.
Qed.

(** ** C3 *)

Lemma observe_nth (prev : list Split) (t0v now v : R) (i : nat) :
  nth_error (observe prev (Some t0v) now v) i =
  option_map (fun sp => match t sp with
                        | Some _ => sp
                        | None => if Rge_dec v (target sp)
                                  then {| target := target sp; t := Some (now - t0v) |}
                                  else sp
                        end) (nth_error prev i).
Proof. unfold observe. apply nth_error_map. Qed.

Lemma observe_keeps_set (prev : list Split) (t0v : option R) (now v : R)
  (i : nat) (sp : Split) :
  nth_error prev i = Some sp -> t sp <> None ->
  nth_error (observe prev t0v now v) i = Some sp.
Proof.
  intros Hi Ht. destruct t0v as [t0v|]; [|exact Hi].
  rewrite observe_nth, Hi. cbn.
  destruct (t sp); [reflexivity|congruence].
Qed.

Lemma observe_all_keeps_set (obs : list (option R * R * R)) :
  forall (prev : list Split) (i : nat) (sp : Split),
  nth_error prev i = Some sp -> t sp <> None ->
  nth_error (observe_all prev obs) i = Some sp.
Proof.
  induction obs as [|[[t0v now] v] obs IH]; intros prev i sp Hi Ht; cbn; [exact Hi|].
  apply IH; [|exact Ht]. apply observe_keeps_set; assumption.
Qed.

(** C3: with [t0] unset [observe] returns its input; with [t0] set it
    keeps the length, leaves every already-set entry as it is, sets
    [t = now - t0] on every unset entry whose target is at most the
    speed, and leaves the other unset entries unset; and an entry that is
    set stays the same through any later sequence of [observe] calls,
    whatever their speeds. *)
Theorem C3_observe_write_once (prev : list Split) (now v : R) :
  observe prev None now v = prev /\
  (forall t0v : R,
     length (observe prev (Some t0v) now v) = length prev /\
     (forall i sp, nth_error prev i = Some sp ->
        (t sp <> None -> nth_error (observe prev (Some t0v) now v) i = Some sp) /\
        (t sp = None -> target sp <= v ->
           nth_error (observe prev (Some t0v) now v) i =
           Some {| target := target sp; t := Some (now - t0v) |}) /\
        (t sp = None -> v < target sp ->
           nth_error (observe prev (Some t0v) now v) i = Some sp))) /\
  (forall obs i sp, nth_error prev i = Some sp -> t sp <> None ->
     nth_error (observe_all prev obs) i = Some sp).
Proof.
  split; [reflexivity|]. split.
  - intros t0v. split; [unfold observe; apply length_map|].
    intros i sp Hi. rewrite !observe_nth, Hi. cbn.
    split; [intros Ht; destruct (t sp); [reflexivity|congruence]|].
    split; intros Ht Hv; rewrite Ht;
      destruct (Rge_dec v (target sp)); first [reflexivity | lra].
  - intros obs i sp. apply observe_all_keeps_set.
Qed.

(** ** C6 *)

Lemma fresh_splits_unset : Forall (fun sp => t sp = None) fresh_splits.
Proof. cbn. repeat constructor. Qed.

Lemma fresh_splits_targets : map target fresh_splits = SPEED_THRESHOLDS.
Proof. reflexivity. Qed.

(** C6: whatever state the session reached, [resetAll] leaves it idle
    (not running, not armed, [t0] unset, [subRef] cleared), every split unset
    with the configured targets, maximum, average and current speed,
    distance and elapsed time 0, no last coordinate, and the filter
    without a stored value, so its next output is its raw input. *)
Theorem C6_reset_clears (s : AppState) :
  let r := resetAll s in
  running r = false /\ armed r = false /\ t0 r = None /\ subRef r = None /\
  Forall (fun sp => t sp = None) (splits r) /\
  map target (splits r) = SPEED_THRESHOLDS /\
  maxKmh r = 0 /\ avgKmh r = 0 /\ currKmh r = 0 /\ distanceM r = 0 /\
  elapsedMs r = 0 /\ lastPoint r = None /\ Ema.y (ema r) = None /\
  (forall x, fst (Ema.next (ema r) x) = x).
Proof.
  cbn. repeat split; try reflexivity; apply fresh_splits_unset.
Qed.

(** ** C7 *)

(** C7: [next] adopts and stores its input when no value is stored, and
    otherwise returns and stores [alpha * x + (1 - alpha) * y]; the
    coefficient is the constructor argument clamped into [0.05, 0.9]
    (kept as given inside that range), so 0 gives 0.05 and 5 gives 0.9. *)
Theorem C7_ema_next_clamp (f : Ema.EmaFilter) (x a : R) :
  (Ema.y f = None ->
     Ema.next f x = (x, {| Ema.alpha := Ema.alpha f; Ema.y := Some x |})) /\
  (forall y0, Ema.y f = Some y0 ->
     Ema.next f x =
       (Ema.alpha f * x + (1 - Ema.alpha f) * y0,
        {| Ema.alpha := Ema.alpha f;
           Ema.y := Some (Ema.alpha f * x + (1 - Ema.alpha f) * y0) |})) /\
  Ema.alpha (Ema.create a) = Geo.clamp a 0.05 0.9 /\
  0.05 <= Ema.alpha (Ema.create a) <= 0.9 /\
  (0.05 <= a <= 0.9 -> Ema.alpha (Ema.create a) = a) /\
  Ema.alpha (Ema.create 0.0) = 0.05 /\ Ema.alpha (Ema.create 5.0) = 0.9.
Proof.
  unfold Ema.next, Ema.create, Geo.clamp; cbn.
  split; [intros Hy; rewrite Hy; reflexivity|].
  split; [intros y0 Hy; rewrite Hy; reflexivity|].
  split; [reflexivity|].
  split.
  { split; [apply Rmax_l|].
    apply Rmax_lub; [lra|apply Rmin_l]. }
  split.
  { intros Ha. rewrite Rmin_right by lra. apply Rmax_right. lra. }
  split.
  - rewrite Rmin_right by lra. apply Rmax_left. lra.
  - rewrite Rmin_left by lra. apply Rmax_right. lra.
Qed.

(** ** C9 *)

(** C9 (code at the failing input): permission granted, Start pressed,
    and Stop pressed before the awaited [watchPositionAsync] call has
    resolved.  [stop] finds [subRef.current] empty and removes nothing;
    when the call resolves, line 155 stores the new subscription, and its
    next update changes the current speed (from 0 to 18 km/h) and the
    last coordinate although the component is stopped. *)
Theorem C9_stop_before_subscribed :
  let w2 := run boot [Perm true; PressMain; PressMain] in
  let w3 := run w2 [Resolve 0; Fix 0 (loc_at 0 0 5 1000)] in
  running (app w2) = false /\ subRef (app w2) = None /\
  currKmh (app w2) = 0 /\ lastPoint (app w2) = None /\
  running (app w3) = false /\ subRef (app w3) = Some 0%nat /\
  currKmh (app w3) = 18 /\ lastPoint (app w3) = Some (coords (loc_at 0 0 5 1000)).
Proof.
  cbn. unfold Geo.KMH. repeat split; try reflexivity. lra.
Qed.

(** ** C10 *)

(** C10: with location permission granted (the only case in which the
    button is shown), [start] arms the component after resetting every
    split, the maximum, average and current speed, the distance and the
    elapsed time to 0, unsetting [t0] and the last coordinate, and
    clearing the filter's stored value. *)
Theorem C10_start_resets (s : AppState) (Hperm : hasPerm s = Some true) :
  let r := start s in
  running r = true /\ armed r = true /\
  splits r = fresh_splits /\ Forall (fun sp => t sp = None) (splits r) /\
  maxKmh r = 0 /\ avgKmh r = 0 /\ currKmh r = 0 /\ distanceM r = 0 /\
  elapsedMs r = 0 /\ t0 r = None /\ lastPoint r = None /\
  Ema.y (ema r) = None /\ Ema.alpha (ema r) = Ema.alpha (ema s).
Proof.
  unfold start. rewrite Hperm. cbn.
  repeat split; try reflexivity; apply fresh_splits_unset.
Qed.

Lemma C10_start_resets_witness :
  hasPerm (app (run boot [Perm true])) = Some true /\
  running (start (app (run boot [Perm true]))) = true.
Proof.
  split; [reflexivity|].
  apply (C10_start_resets (app (run boot [Perm true])) eq_refl).
Defined.

End Claims.

Module Extras.
Import App Inputs Reach.

(** ** Reachable states *)

Lemma meas_inv_on_location (c : Closure) (loc : LocationObject) (s : AppState) :
  cl_t0 c = None -> meas_inv s -> meas_inv (on_location c loc s).
Proof.
  intros Hct (Hsp & Hel & Hav & Hcm & Hm & Hlp & Hal).
  unfold meas_inv, on_location, Ema.next. cbn. rewrite Hct. cbn.
  split; [exact Hsp|]. split; [exact Hel|]. split; [exact Hav|].
  split; [apply Rmax_r|].
  split; [eapply Rle_trans; [exact Hm|apply Rmax_l]|].
  split; [discriminate|exact Hal].
Qed.


Lemma reach_inv_initial : reach_inv boot.
Proof.
  split; [exact AppFacts.app_inv_initial|]. unfold meas_inv; cbn.
  repeat split; try reflexivity; lra.
Qed.

Lemma reach_inv_step (w : World) (e : event) :
  reach_inv w -> reach_inv (step w e).
Proof.
  intros [Hw Hm]. split; [apply AppFacts.app_inv_step, Hw|].
  destruct Hw as (Hra & Ht0 & Hcl).
  pose proof Hm as (Hsp & Hel & Hav & Hcm & Hmx & Hlp & Hal).
  destruct e as [g| | |i|i|i loc].
  - exact Hm.
  - unfold step. destruct (ui_shown (app w)); [|exact Hm].
    destruct (running (app w)).
    + exact Hm.
    + unfold start_w. destruct (hasPerm (app w)) as [[|]|] eqn:Hp; try exact Hm.
      unfold start. cbn. rewrite Hp. unfold meas_inv; cbn.
      repeat split; try reflexivity; try lra; exact Hal.
  - unfold step. destruct (ui_shown (app w)); [|exact Hm].
    unfold meas_inv; cbn. repeat split; try reflexivity; try lra; exact Hal.
  - unfold step. destruct (find_sub i (pending w)); exact Hm.
  - exact Hm.
  - unfold step. destruct (find_sub i (watches w)) as [c|] eqn:Hf; [|exact Hm].
    apply meas_inv_on_location; [|exact Hm].
    apply (Hcl i). rewrite in_app_iff. left. apply AppFacts.find_sub_in, Hf.
Qed.

Lemma reach_inv_run (es : list event) : forall w, reach_inv w -> reach_inv (run w es).
Proof.
  induction es as [|e es IH]; intros w Hw; [exact Hw|].
  apply IH, reach_inv_step, Hw.
Qed.

Lemma reachable (es : list event) : reach_inv (run boot es).
Proof. apply reach_inv_run, reach_inv_initial. Qed.

(** X1: in every state reachable from the initial one, [t0] is unset, the
    split table is the fresh one (no split recorded), and the elapsed time
    and the average speed are 0. *)
Theorem X_never_records (es : list event) :
  let s := app (run boot es) in
  t0 s = None /\ splits s = fresh_splits /\ elapsedMs s = 0 /\ avgKmh s = 0.
Proof.
  destruct (reachable es) as [[_ [Ht _]] (Hsp & Hel & Hav & _)].
  repeat split; assumption.
Qed.

(** X3: in every reachable state the maximum speed is non-negative and at
    least the current speed. *)
Theorem X_max_bounds_current (es : list event) :
  let s := app (run boot es) in
  0 <= maxKmh s /\ currKmh s <= maxKmh s.
Proof.
  destruct (reachable es) as [_ (_ & _ & _ & Hcm & Hm & _)].
  split; assumption.
Qed.

(** X5: in every reachable state the speed filter's coefficient is 0.25. *)
Theorem X_filter_alpha (es : list event) :
  Ema.alpha (ema (app (run boot es))) = 0.25.
Proof.
  destruct (reachable es) as [_ (_ & _ & _ & _ & _ & _ & Hal)].
  rewrite Hal. cbn. apply Claims.clamp_default.
Qed.

(** X6: over any sequence of location updates, from any state, the
    maximum speed never decreases, and after an update it is at least the
    current speed. *)
Theorem X_max_monotone (c : Closure) (loc : LocationObject) (s : AppState) :
  maxKmh s <= maxKmh (on_location c loc s) /\
  currKmh (on_location c loc s) <= maxKmh (on_location c loc s) /\
  (forall (w : World) (fixes : list (nat * LocationObject)),
     maxKmh (app w) <=
     maxKmh (app (run w (map (fun f => Fix (fst f) (snd f)) fixes)))).
Proof.
  assert (H1 : forall c loc s, maxKmh s <= maxKmh (on_location c loc s) /\
                 currKmh (on_location c loc s) <= maxKmh (on_location c loc s)).
  { intros c' l' s'. unfold on_location, Ema.next. cbn.
    split; [apply Rmax_l|apply Rmax_r]. }
  split; [apply H1|]. split; [apply H1|].
  intros w fixes. revert w. induction fixes as [|[i l] fixes IH]; intros w; [cbn; lra|].
  change (run w (map (fun f => Fix (fst f) (snd f)) ((i, l) :: fixes)))
    with (run (step w (Fix i l)) (map (fun f => Fix (fst f) (snd f)) fixes)).
  apply Rle_trans with (r2 := maxKmh (app (step w (Fix i l)))); [|apply IH].
  unfold step. destruct (find_sub i (watches w)); [apply H1|lra].
Qed.

(** ** Speed filter *)

(** X7: a filter built by the constructor never overshoots: with a stored
    value [y0], [next x] lies between [x] and [y0]. *)
Theorem X_ema_between (a x y0 : R) :
  let f := {| Ema.alpha := Ema.alpha (Ema.create a); Ema.y := Some y0 |} in
  Rmin x y0 <= fst (Ema.next f x) <= Rmax x y0.
Proof.
  cbn. set (al := Geo.clamp a 0.05 0.9).
  assert (Ha : 0.05 <= al <= 0.9).
  { unfold al, Geo.clamp. split; [apply Rmax_l|].
    apply Rmax_lub; [lra|apply Rmin_l]. }
  unfold Rmin, Rmax. destruct (Rle_dec x y0); split; nra.
Qed.

Lemma ema_iter (al x y0 : R) (n : nat) :
  Nat.iter n (fun h => snd (Ema.next h x)) {| Ema.alpha := al; Ema.y := Some y0 |} =
  {| Ema.alpha := al; Ema.y := Some (x + (1 - al) ^ n * (y0 - x)) |}.
Proof.
  induction n as [|n IH].
  - cbn. do 2 f_equal. ring.
  - change (Nat.iter (S n) (fun h => snd (Ema.next h x))
              {| Ema.alpha := al; Ema.y := Some y0 |})
      with (snd (Ema.next (Nat.iter n (fun h => snd (Ema.next h x))
                              {| Ema.alpha := al; Ema.y := Some y0 |}) x)).
    rewrite IH. unfold Ema.next. cbn. do 2 f_equal. ring.
Qed.

(** X8: fed a constant input [x] [n] times, a constructed filter with
    stored value [y0] holds [x + (1 - alpha)^n (y0 - x)]; its distance to
    [x] shrinks at least by the factor 0.95 per step. *)
Theorem X_ema_constant_input (a x y0 : R) (n : nat) :
  let f := {| Ema.alpha := Ema.alpha (Ema.create a); Ema.y := Some y0 |} in
  let g := Nat.iter n (fun h => snd (Ema.next h x)) f in
  Ema.alpha g = Ema.alpha f /\
  Ema.y g = Some (x + (1 - Ema.alpha f) ^ n * (y0 - x)) /\
  Rabs (x + (1 - Ema.alpha f) ^ n * (y0 - x) - x) <= 0.95 ^ n * Rabs (y0 - x).
Proof.
  cbn zeta. set (al := Ema.alpha (Ema.create a)).
  assert (Ha : 0.05 <= al <= 0.9).
  { unfold al, Ema.create, Geo.clamp; cbn. split; [apply Rmax_l|].
    apply Rmax_lub; [lra|apply Rmin_l]. }
  rewrite ema_iter. split; [reflexivity|]. split; [reflexivity|].
  change (Ema.alpha {| Ema.alpha := al; Ema.y := Some y0 |}) with al.
  replace (x + (1 - al) ^ n * (y0 - x) - x) with ((1 - al) ^ n * (y0 - x)) by ring.
  rewrite Rabs_mult, (Rabs_right ((1 - al) ^ n)) by (apply Rle_ge, pow_le; lra).
  apply Rmult_le_compat_r; [apply Rabs_pos|].
  apply pow_incr. lra.
Qed.

(** ** Average speed *)

(** X10: the average-speed updater returns 0 when [now] is not after
    [t0], and never returns a negative value from a non-negative distance
    and previous average. *)
Theorem X_avg_guard_nonneg (t0v : option R) (d now curr : R)
  (Hd : 0 <= d) (Hc : 0 <= curr) :
  (forall t, t0v = Some t -> now <= t -> avg_update t0v d now curr = 0) /\
  0 <= avg_update t0v d now curr.
Proof.
  split.
  - intros t Ht Hle. subst t0v. unfold avg_update.
    destruct (Rle_dec ((now - t) / 1000) 0); [reflexivity|lra].
  - unfold avg_update. destruct t0v as [t|]; [|exact Hc].
    destruct (Rle_dec ((now - t) / 1000) 0) as [|Hn]; [lra|].
    apply Rnot_le_lt in Hn.
    apply Rmult_le_pos; [lra|].
    left. apply Rinv_0_lt_compat. lra.
Qed.

Lemma X_avg_guard_nonneg_witness :
  0 <= 1000 /\ 0 <= 0 /\ 0 <= avg_update (Some 0) 1000 3600000 0.
Proof.
  split; [lra|]. split; [lra|].
  apply (X_avg_guard_nonneg (Some 0) 1000 3600000 0); lra.
Defined.

(** ** Split tracker *)

(** X11: [observe] keeps the targets in place and is idempotent: calling
    it twice with the same [t0], time and speed gives the same table as
    calling it once. *)
Theorem X_observe_idempotent (l : list Split) (t0v : option R) (now v : R) :
  map target (observe l t0v now v) = map target l /\
  observe (observe l t0v now v) t0v now v = observe l t0v now v.
Proof.
  destruct t0v as [t0'|]; [|split; reflexivity].
  unfold observe. rewrite !map_map. split.
  - apply map_ext. intros sp. destruct (t sp); [reflexivity|].
    destruct (Rge_dec v (target sp)); reflexivity.
  - apply map_ext. intros sp. destruct (t sp) eqn:Ht; [rewrite Ht; reflexivity|].
    destruct (Rge_dec v (target sp)); cbn; [reflexivity|].
    rewrite Ht. destruct (Rge_dec v (target sp)); [contradiction|reflexivity].
Qed.

Lemma fop_map {A B : Type} (P : A -> A -> Prop) (Q : B -> B -> Prop) (f : A -> B) :
  forall l, ForallOrdPairs P l ->
  (forall x y, P x y -> Q (f x) (f y)) -> ForallOrdPairs Q (map f l).
Proof.
  induction l as [|a l IH]; intros Hl HPQ; cbn; [constructor|].
  inversion Hl as [|? ? Ha Hrest]; subst.
  constructor.
  - apply Forall_map. eapply Forall_impl; [|exact Ha]. intros y Hy. apply HPQ, Hy.
  - apply IH; assumption.
Qed.

Lemma fop_with {A : Type} (P : A -> A -> Prop) (Q : A -> Prop) :
  forall l, ForallOrdPairs P l -> Forall Q l ->
  ForallOrdPairs (fun x y => P x y /\ Q x /\ Q y) l.
Proof.
  induction l as [|a l IH]; intros Hl Hq; [constructor|].
  inversion Hl as [|? ? Ha Hrest]; subst.
  inversion Hq as [|? ? Hqa Hql]; subst.
  constructor; [|apply IH; assumption].
  rewrite Forall_forall in *. intros y Hy. split; [apply Ha, Hy|].
  split; [exact Hqa|apply Hql, Hy].
Qed.

Lemma observe_ordered (l : list Split) (B t0v now v : R) :
  ForallOrdPairs split_le l -> times_below B l -> B <= now - t0v ->
  ForallOrdPairs split_le (observe l (Some t0v) now v) /\
  times_below (now - t0v) (observe l (Some t0v) now v).
Proof.
  intros Hord Hbel HB. unfold observe, times_below in *. split.
  - apply fop_map with (P := fun x y => split_le x y /\
                          (forall ts, t x = Some ts -> ts <= B) /\
                          (forall ts, t y = Some ts -> ts <= B));
      [apply fop_with; assumption|].
    intros x y [[Htg Hty] [Hx Hy]]. split.
    + destruct (t x), (t y); cbn;
        repeat match goal with |- context [Rge_dec ?a ?b] => destruct (Rge_dec a b) end;
        cbn; exact Htg.
    + intros tb Htb. destruct (t y) as [b0|] eqn:Ey.
      * (* [y] was set: it is unchanged, and so is [x] *)
        rewrite Ey in Htb. injection Htb as <-.
        destruct (Hty b0 eq_refl) as [ta [Hta Hle]].
        exists ta. rewrite Hta. split; [exact Hta|exact Hle].
      * destruct (Rge_dec v (target y)) as [Hvy|]; [|rewrite Ey in Htb; discriminate].
        cbn in Htb. injection Htb as <-.
        destruct (t x) as [a0|] eqn:Ex.
        -- exists a0. split; [exact Ex|]. pose proof (Hx a0 eq_refl). lra.
        -- destruct (Rge_dec v (target x)); [|lra].
           exists (now - t0v). split; [reflexivity|lra].
  - apply Forall_map. eapply Forall_impl; [|exact Hbel].
    intros sp Hsp ts Hts. destruct (t sp) as [a0|] eqn:E.
    + rewrite E in Hts. injection Hts as <-. pose proof (Hsp a0 E). lra.
    + destruct (Rge_dec v (target sp)); cbn in Hts;
        [injection Hts as <-; lra|rewrite E in Hts; discriminate].
Qed.

Lemma fresh_splits_ordered : ForallOrdPairs split_le fresh_splits.
Proof.
  unfold fresh_splits, SPEED_THRESHOLDS. cbn.
  repeat first [apply FOP_nil | apply FOP_cons | apply Forall_nil | apply Forall_cons].
  all: unfold split_le; cbn; split; [lra|intros; discriminate].
Qed.

Lemma fold_observe_ordered (t0v : R) (obs : list (R * R)) :
  forall l B,
  ForallOrdPairs split_le l -> times_below B l ->
  Forall (fun o => B <= fst o - t0v) obs -> Sorted Rle (map fst obs) ->
  ForallOrdPairs split_le
    (fold_left (fun acc o => observe acc (Some t0v) (fst o) (snd o)) obs l).
Proof.
  induction obs as [|[now v] obs IH]; intros l B Hord Hbel Hge Hs; cbn; [exact Hord|].
  inversion Hge as [|? ? Hnow Hrest]; subst. cbn in Hnow.
  destruct (observe_ordered l B t0v now v Hord Hbel Hnow) as [Hord' Hbel'].
  apply IH with (B := now - t0v); [exact Hord'|exact Hbel'| |].
  - apply Sorted_StronglySorted in Hs; try (intros x y z; apply Rle_trans).
    inversion Hs as [|? ? _ Hall]; subst.
    rewrite Forall_forall in *. intros o Ho.
    assert (Hle : now <= fst o) by (apply Hall, in_map, Ho). lra.
  - inversion Hs; assumption.
Qed.

(** X12: with a fixed [t0] and updates in non-decreasing time order,
    repeated [observe] calls from the fresh table keep the splits ordered:
    a higher split is recorded only if every lower one is, at a time no
    later than its own. *)
Theorem X_split_times_ordered (t0v : R) (obs : list (R * R))
  (Hsorted : Sorted Rle (map fst obs)) :
  ForallOrdPairs split_le
    (fold_left (fun acc o => observe acc (Some t0v) (fst o) (snd o)) obs fresh_splits).
Proof.
  destruct obs as [|[now v] rest]; [apply fresh_splits_ordered|].
  apply fold_observe_ordered with (B := now - t0v).
  - apply fresh_splits_ordered.
  - unfold fresh_splits, times_below. cbn.
    repeat constructor; cbn; intros; discriminate.
  - apply Sorted_StronglySorted in Hsorted; try (intros x y z; apply Rle_trans).
    inversion Hsorted as [|? ? _ Hall]; subst.
    constructor; [cbn; lra|].
    rewrite Forall_forall in *. intros o Ho.
    assert (Hle : now <= fst o) by (apply Hall, in_map, Ho). lra.
  - exact Hsorted.
Qed.

Lemma X_split_times_ordered_witness :
  Sorted Rle (map fst [(1000, 50); (2000, 90)]) /\
  ForallOrdPairs split_le
    (fold_left (fun acc o => observe acc (Some 0) (fst o) (snd o))
       [(1000, 50); (2000, 90)] fresh_splits).
Proof.
  assert (Hs : Sorted Rle (map fst [(1000, 50); (2000, 90)])).
  { cbn. repeat constructor. lra. }
  split; [exact Hs|]. apply (X_split_times_ordered 0 _ Hs).
Defined.

(** ** Screen and commands *)

(** X13: in every reachable state, whatever the number formatting, the
    split list shows nine rows and every row's value is the em dash. *)
Theorem X_split_rows_dashes (numStr toFixed2 : R -> String.string) (es : list event) :
  map View.value (View.formattedSplits numStr toFixed2 (splits (app (run boot es)))) =
  repeat View.EM_DASH 9.
Proof.
  destruct (reachable es) as [_ (Hsp & _)]. rewrite Hsp. reflexivity.
Qed.

(** X14: with permission granted and the component stopped, pressing the
    main button ([start]), the resolution of its [watchPositionAsync]
    call and a first location update show the raw reported speed in km/h
    as current speed, the larger of 0 and that speed as maximum, distance
    0, record the fix as the last coordinate, and leave the component
    running with the new subscription stored. *)
Theorem X_start_then_first_fix (w : World) (loc : LocationObject)
  (Hperm : hasPerm (app w) = Some true) (Hidle : running (app w) = false) :
  let i := next_id w in
  let r := app (run w [PressMain; Resolve i; Fix i loc]) in
  currKmh r = Geo.KMH (speed (coords loc)) /\
  maxKmh r = Rmax 0 (Geo.KMH (speed (coords loc))) /\
  distanceM r = 0 /\ lastPoint r = Some (coords loc) /\
  running r = true /\ subRef r = Some i.
Proof.
  cbv zeta.
  assert (H1 : step w PressMain = start_w w).
  { unfold step, ui_shown. rewrite Hperm, Hidle. reflexivity. }
  change (run w [PressMain; Resolve (next_id w); Fix (next_id w) loc])
    with (step (step (step w PressMain) (Resolve (next_id w))) (Fix (next_id w) loc)).
  rewrite H1. unfold start_w, start. rewrite Hperm. cbn.
  repeat (rewrite Nat.eqb_refl; cbn).
  repeat split; reflexivity.
Qed.

Lemma X_start_then_first_fix_witness :
  hasPerm (app (run boot [Perm true])) = Some true /\
  running (app (run boot [Perm true])) = false /\
  distanceM (app (run (run boot [Perm true]) [PressMain; Resolve 0; Fix 0 (loc_at 0 0 5 0)])) = 0.
Proof.
  split; [reflexivity|]. split; [reflexivity|].
  destruct (X_start_then_first_fix (run boot [Perm true]) (loc_at 0 0 5 0)
              eq_refl eq_refl) as (_ & _ & Hd & _).
  exact Hd.
Defined.



(** X16: in every reachable state, the callback of every active watch and
    of every pending [watchPositionAsync] call closes over
    [armed = false] and [t0 = null], and the [running] and [armed] flags
    agree. *)
Theorem X_callbacks_disarmed (es : list event) :
  let w := run boot es in
  running (app w) = armed (app w) /\
  (forall i c, In (i, c) (watches w) \/ In (i, c) (pending w) ->
     cl_armed c = false /\ cl_t0 c = None).
Proof.
  destruct (reachable es) as [(Hra & _ & Hcl) _].
  split; [exact Hra|].
  intros i c Hic. apply (Hcl i). rewrite in_app_iff. exact Hic.
Qed.


End Extras.
